(** * print_args: the fake compiler wrapper that echoes its argument vector

    A shallow embedding of [print_args.cc] and [print_args.cpp] and the
    properties of their observable behaviour.

    Both translation units consist of one function, [main], which writes a
    begin marker, every argument after the program name on a line of its
    own, an end marker, and returns 1.  The [.cc] file writes through
    [std::cout] and [operator<<], the [.cpp] file through [printf]. *)

From Stdlib Require Import ZArith List String Ascii Bool Lia.
From Equations Require Import Equations.
Import ListNotations.

Local Open Scope string_scope.
Local Open Scope Z_scope.

(** ** C data *)

(** [int] is a 32-bit signed integer; its arithmetic is carried out in [Z]
    and an operation whose result leaves the range is undefined. *)
Definition INT_MAX : Z := 2147483647.
Definition INT_MIN : Z := -2147483648.

(** The terminator of a C string. *)
Definition NUL : ascii := Ascii.zero.

(** A [char *] is either the null pointer ([None]) or points into an array of
    characters; [Some buf] holds the characters from the pointee to the end of
    the array, terminator included. *)
Definition char_ptr : Type := option string.

(** The array a string literal denotes: its characters and a terminator. *)
Definition literal (s : string) : char_ptr :=
  Some (s ++ String NUL EmptyString)%string.

(** The characters before the first terminator, as [strlen], [%s] and
    [operator<<(const char* )] read them.  Running off the array without
    meeting a terminator is undefined ([None]). *)
Fixpoint c_str (buf : string) : option string :=
  match buf with
  | EmptyString => None
  | String c rest =>
      if Ascii.eqb c NUL then Some EmptyString
      else match c_str rest with
           | Some s => Some (String c s)
           | None => None
           end
  end.

(** A text that can be the contents of a C string: no terminator inside. *)
Fixpoint nul_free (s : string) : bool :=
  match s with
  | EmptyString => true
  | String c rest => negb (Ascii.eqb c NUL) && nul_free rest
  end.

(** ** The process and its surroundings *)

Section Runtime.

(** Whatever else the process could reach: environment variables, the file
    system, the network.  Nothing below inspects it. *)
Variable Ext : Type.

Record world : Type := mkWorld {
  w_stdin  : string;   (* bytes of standard input not yet consumed *)
  w_stdout : string;   (* bytes delivered to standard output so far *)
  w_stderr : string;   (* bytes delivered to standard error so far *)
  w_ext    : Ext
}.

(** The two standard output streams ([stdout]/[std::cout] and
    [stderr]/[std::cerr]). *)
Inductive ostream : Type := Stdout | Stderr.

(** The machine state: the surroundings, and a log of the indices at which the
    argument vector was read (oldest first). *)
Record state : Type := mkState {
  st_world : world;
  st_loads : list Z
}.

(** Computations: a state transformer that may be undefined. *)
Definition M (A : Type) : Type := state -> option (A * state).

Definition ret {A} (a : A) : M A := fun st => Some (a, st).

Definition bind {A B} (m : M A) (k : A -> M B) : M B :=
  fun st => match m st with
            | Some (a, st') => k a st'
            | None => None
            end.

Definition undefined {A} : M A := fun _ => None.

(** Appending bytes to one of the output streams. *)
Definition write (os : ostream) (bytes : string) : M unit :=
  fun st =>
    let w := st_world st in
    let w' :=
      match os with
      | Stdout => mkWorld (w_stdin w) (w_stdout w ++ bytes)%string (w_stderr w) (w_ext w)
      | Stderr => mkWorld (w_stdin w) (w_stdout w) (w_stderr w ++ bytes)%string (w_ext w)
      end in
    Some (tt, mkState w' (st_loads st)).

(** [argv[i]]: defined for the indices of the array only; every read is
    logged. *)
Definition load (argv : list char_ptr) (i : Z) : M char_ptr :=
  fun st =>
    if (0 <=? i) && (i <? Z.of_nat (List.length argv)) then
      match nth_error argv (Z.to_nat i) with
      | Some p => Some (p, mkState (st_world st) (st_loads st ++ [i])%list)
      | None => None
      end
    else None.

End Runtime.

Arguments mkWorld {Ext} _ _ _ _.
Arguments w_stdin {Ext} _.
Arguments w_stdout {Ext} _.
Arguments w_stderr {Ext} _.
Arguments w_ext {Ext} _.
Arguments mkState {Ext} _ _.
Arguments st_world {Ext} _.
Arguments st_loads {Ext} _.
Arguments ret {Ext A} _ _.
Arguments bind {Ext A B} _ _ _.
Arguments undefined {Ext A} _.
Arguments write {Ext} _ _ _.
Arguments load {Ext} _ _ _.

Declare Scope prog_scope.
Delimit Scope prog_scope with prog.
Notation "x <- m ;; k" := (bind m (fun x => k))
  (at level 61, m at next level, right associativity) : prog_scope.
Notation "m ;; k" := (bind m (fun _ => k))
  (at level 61, right associativity) : prog_scope.
Local Open Scope prog_scope.

(** ** The two output libraries *)

(** *** iostream *)

(** [std::cout] is the stream object bound to standard output. *)
Definition cout {Ext} : M Ext ostream := ret Stdout.

(** [os << p] for a [const char *] operand: the characters of the C string at
    [p] are appended to the stream and the stream is returned, so that
    insertions chain to the left.  A null or unterminated operand is
    undefined. *)
Definition insert {Ext} (os : M Ext ostream) (p : char_ptr) : M Ext ostream :=
  o <- os ;;
  match p with
  | Some buf =>
      match c_str buf with
      | Some s => write o s ;; ret o
      | None => undefined
      end
  | None => undefined
  end.

Notation "os << p" := (insert os p)
  (at level 40, left associativity) : prog_scope.

(** *** stdio *)

(** The expansion of a format: ordinary characters are copied, [%s] is
    replaced by the C string at the next argument, [%%] by a percent sign.
    Any other conversion, a missing argument, or a null or unterminated
    string argument is undefined. *)
Fixpoint format (fmt : string) (args : list char_ptr) : option string :=
  match fmt with
  | EmptyString => Some EmptyString
  | String c rest =>
      if Ascii.eqb c "%"%char then
        match rest with
        | EmptyString => None
        | String d rest' =>
            if Ascii.eqb d "s"%char then
              match args with
              | Some buf :: args' =>
                  match c_str buf, format rest' args' with
                  | Some s, Some out => Some (s ++ out)%string
                  | _, _ => None
                  end
              | _ => None
              end
            else if Ascii.eqb d "%"%char then
              match format rest' args with
              | Some out => Some (String d out)
              | None => None
              end
            else None
        end
      else
        match format rest args with
        | Some out => Some (String c out)
        | None => None
        end
  end.

(** A format in which no conversion occurs. *)
Fixpoint percent_free (s : string) : bool :=
  match s with
  | EmptyString => true
  | String c rest => negb (Ascii.eqb c "%"%char) && percent_free rest
  end.

(** [fprintf(stream, fmt, args...)]: the expansion of the format is appended
    to the stream and its length returned. *)
Definition fprintf {Ext} (os : ostream) (fmt : char_ptr) (args : list char_ptr)
  : M Ext Z :=
  match fmt with
  | Some buf =>
      match c_str buf with
      | Some f =>
          match format f args with
          | Some out => write os out ;; ret (Z.of_nat (String.length out))
          | None => undefined
          end
      | None => undefined
      end
  | None => undefined
  end.

(** [printf] is [fprintf] on standard output. *)
Definition printf {Ext} (fmt : char_ptr) (args : list char_ptr) : M Ext Z :=
  fprintf Stdout fmt args.

(** ** The counting loop *)

(** [for (int i = start; i < bound; ++i) body(i)].  The increment of an [int]
    that already holds [INT_MAX] is undefined.  The recursion is on the
    distance from [i] to the bound. *)
Equations? for_lt {Ext} (body : Z -> M Ext unit) (bound i : Z) : M Ext unit
  by wf (Z.to_nat (bound - i)) lt :=
for_lt body bound i with Z_lt_dec i bound := {
  | left _ =>
      body i ;;
      (if i <? INT_MAX then for_lt body bound (i + 1) else undefined)
  | right _ => ret tt }.
Proof. lia. Qed.

(** The line feed, written ["\n"] in the sources. *)
Definition LF : string := String "010"%char EmptyString.

(** ** print_args.cc *)

Module print_args_cc.

Definition main {Ext} (argc : Z) (argv : list char_ptr) : M Ext Z :=
  cout << literal ("===HEDRON_COMPILE_COMMANDS_BEGIN_ARGS===" ++ LF) ;;
  for_lt (fun i =>
            p <- load argv i ;;
            cout << p << literal LF ;;
            ret tt)
         argc 1 ;;
  cout << literal ("===HEDRON_COMPILE_COMMANDS_END_ARGS===" ++ LF) ;;
  ret 1.

End print_args_cc.

(** ** print_args.cpp *)

Module print_args_cpp.

Definition main {Ext} (argc : Z) (argv : list char_ptr) : M Ext Z :=
  printf (literal ("===HEDRON_COMPILE_COMMANDS_BEGIN_ARGS===" ++ LF)) [] ;;
  for_lt (fun i =>
            p <- load argv i ;;
            printf (literal ("%s" ++ LF)) [p] ;;
            ret tt)
         argc 1 ;;
  printf (literal ("===HEDRON_COMPILE_COMMANDS_END_ARGS===" ++ LF)) [] ;;
  ret 1.

End print_args_cpp.

(** ** Process start-up *)

(** What the hosting environment hands to [main]. *)
Record startup : Type := mkStartup {
  argc : Z;
  argv : list char_ptr
}.

(** The guarantees of the hosting environment: [argc] is a non-negative
    [int], [argv] has [argc + 1] elements, the first [argc] of them point to
    C strings and [argv[argc]] is the null pointer. *)
Definition is_c_string (p : char_ptr) : bool :=
  match p with
  | Some buf => match c_str buf with Some _ => true | None => false end
  | None => false
  end.

Definition is_null (p : char_ptr) : bool :=
  match p with Some _ => false | None => true end.

Definition wf_startup (s : startup) : bool :=
  (0 <=? argc s) && (argc s <=? INT_MAX)
  && (Z.of_nat (List.length (argv s)) =? argc s + 1)
  && forallb is_c_string (firstn (Z.to_nat (argc s)) (argv s))
  && forallb is_null (skipn (Z.to_nat (argc s)) (argv s)).

(** The text of a pointer that holds a C string (empty otherwise). *)
Definition text_of (p : char_ptr) : string :=
  match p with
  | Some buf => match c_str buf with Some s => s | None => EmptyString end
  | None => EmptyString
  end.

(** The arguments proper: the texts of [argv[1]] to [argv[argc - 1]]. *)
Definition arguments (s : startup) : list string :=
  map text_of (skipn 1 (firstn (Z.to_nat (argc s)) (argv s))).

(** Launching the program under the name [prog] with the arguments [args]:
    every text is stored with its terminator, and the vector is closed by a
    null pointer. *)
Definition exec (prog : string) (args : list string) : startup :=
  mkStartup (Z.of_nat (S (List.length args)))
            (map literal (prog :: args) ++ [None]).

(** Texts that can be passed as an argument list: C strings, and few enough
    for [argc] to be an [int]. *)
Definition passable (args : list string) : bool :=
  forallb nul_free args && (Z.of_nat (S (List.length args)) <=? INT_MAX).

(** Running a [main] from start-up in given surroundings, with an empty read
    log.  The result is the value returned by [main], which is the exit code
    of the process, and the final state. *)
Definition run {Ext} (main : Z -> list char_ptr -> M Ext Z)
  (s : startup) (w : world Ext) : option (Z * state Ext) :=
  main (argc s) (argv s) (mkState w []).

(** ** The output the specification describes *)

Definition BEGIN_ARGS : string := "===HEDRON_COMPILE_COMMANDS_BEGIN_ARGS===".
Definition END_ARGS : string := "===HEDRON_COMPILE_COMMANDS_END_ARGS===".

(** Each text followed by a newline, in order. *)
Fixpoint lines (args : list string) : string :=
  match args with
  | [] => EmptyString
  | a :: rest => (a ++ LF ++ lines rest)%string
  end.

(** Begin-sentinel line, one line per argument, end-sentinel line. *)
Definition echoed (args : list string) : string :=
  (BEGIN_ARGS ++ LF ++ lines args ++ END_ARGS ++ LF)%string.

(** Surroundings after [bytes] more have reached standard output and nothing
    else has changed. *)
Definition emit {Ext} (bytes : string) (w : world Ext) : world Ext :=
  mkWorld (w_stdin w) (w_stdout w ++ bytes)%string (w_stderr w) (w_ext w).

(** The indices [lo], [lo + 1], ..., [lo + n - 1]. *)
Fixpoint indices (lo : Z) (n : nat) : list Z :=
  match n with
  | O => []
  | S n' => lo :: indices (lo + 1) n'
  end.

(** What an observer of the process sees: the exit code and the final
    surroundings (the read log is internal). *)
Definition behaviour {Ext} (main : Z -> list char_ptr -> M Ext Z)
  (s : startup) (w : world Ext) : option (Z * world Ext) :=
  match run main s w with
  | Some (code, st) => Some (code, st_world st)
  | None => None
  end.

(** ** What the loop needs and what a reader of the output sees *)

(** Running a body over a list of indices, one after the other. *)
Fixpoint each {Ext} (body : Z -> M Ext unit) (idx : list Z) : M Ext unit :=
  match idx with
  | [] => ret tt
  | i :: rest => body i ;; each body rest
  end.

(** The elements of the argument vector that the loop visits:
    [argv[1]] to [argv[argc - 1]], as far as the array holds them. *)
Definition operands (s : startup) : list char_ptr :=
  firstn (Z.to_nat (argc s - 1)) (skipn 1 (argv s)).

(** All of [argv[1]] to [argv[argc - 1]] are there and point to C strings.
    Nothing is asked of [argv[0]], of [argv[argc]] or of what follows, nor
    of the sign of [argc]. *)
Definition readable (s : startup) : bool :=
  (List.length (operands s) =? Z.to_nat (argc s - 1))%nat
  && forallb is_c_string (operands s).

(** A text without a line feed. *)
Fixpoint lf_free (s : string) : bool :=
  match s with
  | EmptyString => true
  | String c rest => negb (Ascii.eqb c "010"%char) && lf_free rest
  end.

(** The number of line feeds of a text. *)
Fixpoint newlines (s : string) : nat :=
  match s with
  | EmptyString => O
  | String c rest =>
      ((if Ascii.eqb c "010"%char then 1 else 0) + newlines rest)%nat
  end.

(** * Properties *)

(** ** Strings *)

Lemma append_assoc (a b c : string) :
  ((a ++ b) ++ c)%string = (a ++ (b ++ c))%string.
Proof. induction a as [|x a IH]; simpl; [reflexivity | now rewrite IH]. Qed.

Lemma append_nil_r (a : string) : (a ++ "")%string = a.
Proof. induction a as [|x a IH]; simpl; [reflexivity | now rewrite IH]. Qed.

Lemma c_str_terminated (s rest : string) :
  nul_free s = true ->
  c_str (s ++ String NUL rest) = Some s.
Proof.
  induction s as [|c s IH]; simpl; intros H.
  - reflexivity.
  - apply andb_prop in H as [Hc Hs].
    apply negb_true_iff in Hc. rewrite Hc, (IH Hs). reflexivity.
Qed.

Lemma c_str_nul_free (buf s : string) :
  c_str buf = Some s -> nul_free s = true.
Proof.
  revert s. induction buf as [|c buf IH]; simpl; intros s H; [discriminate|].
  destruct (Ascii.eqb c NUL) eqn:Hc.
  - now inversion H.
  - destruct (c_str buf) as [t|]; [|discriminate].
    inversion H; subst. simpl. rewrite Hc. simpl. now apply IH.
Qed.

Lemma text_of_literal (s : string) :
  nul_free s = true -> text_of (literal s) = s.
Proof. intros H. unfold text_of, literal. now rewrite c_str_terminated. Qed.

Lemma is_c_string_literal (s : string) : is_c_string (literal s) = true.
Proof.
  unfold is_c_string, literal.
  induction s as [|c s IH]; simpl; [reflexivity|].
  destruct (Ascii.eqb c NUL); [reflexivity|].
  destruct (c_str (s ++ String NUL "")); [reflexivity | discriminate].
Qed.

Lemma is_c_string_text (p : char_ptr) :
  is_c_string p = true -> exists buf, p = Some buf /\ c_str buf = Some (text_of p).
Proof.
  destruct p as [buf|]; simpl; [|discriminate].
  destruct (c_str buf) as [s|] eqn:E; [|discriminate].
  intros _. exists buf. now rewrite E.
Qed.

Lemma lines_app (xs ys : list string) :
  lines (xs ++ ys) = (lines xs ++ lines ys)%string.
Proof.
  induction xs as [|x xs IH]; simpl; [reflexivity|].
  now rewrite IH, !append_assoc.
Qed.

Lemma length_indices (lo : Z) (n : nat) : List.length (indices lo n) = n.
Proof. revert lo. induction n; simpl; intros; [reflexivity | now rewrite IHn]. Qed.

Lemma indices_range (lo : Z) (n : nat) :
  Forall (fun i => lo <= i < lo + Z.of_nat n) (indices lo n).
Proof.
  revert lo. induction n as [|n IH]; intros lo; simpl; constructor.
  - lia.
  - eapply Forall_impl; [|apply IH]. simpl. intros; lia.
Qed.

(** ** The state monad and the stream primitives *)

Lemma emit_emit {Ext} (a b : string) (w : world Ext) :
  emit b (emit a w) = emit (a ++ b) w.
Proof. unfold emit. simpl. now rewrite append_assoc. Qed.

Lemma emit_nil {Ext} (w : world Ext) : emit "" w = w.
Proof. destruct w. unfold emit. simpl. now rewrite append_nil_r. Qed.

Lemma write_stdout {Ext} (bytes : string) (st : state Ext) :
  write Stdout bytes st = Some (tt, mkState (emit bytes (st_world st)) (st_loads st)).
Proof. reflexivity. Qed.

(** [cout << p] on a C string appends its text. *)
Lemma cout_insert {Ext} (buf s : string) (st : state Ext) :
  c_str buf = Some s ->
  (cout << Some buf) st
  = Some (Stdout, mkState (emit s (st_world st)) (st_loads st)).
Proof. intros H. unfold insert, cout, bind, ret. now rewrite H. Qed.

(** A chained insertion appends both texts. *)
Lemma cout_insert2 {Ext} (buf1 s1 buf2 s2 : string) (st : state Ext) :
  c_str buf1 = Some s1 -> c_str buf2 = Some s2 ->
  (cout << Some buf1 << Some buf2) st
  = Some (Stdout, mkState (emit (s1 ++ s2) (st_world st)) (st_loads st)).
Proof.
  intros H1 H2. unfold insert at 1. unfold bind at 1.
  rewrite (cout_insert _ _ _ H1), H2. unfold bind, ret, emit. simpl.
  now rewrite append_assoc.
Qed.

(** A format without a percent sign expands to itself. *)
Lemma format_percent_free (fmt : string) (args : list char_ptr) :
  percent_free fmt = true -> format fmt args = Some fmt.
Proof.
  induction fmt as [|c fmt IH]; simpl; intros H; [reflexivity|].
  apply andb_prop in H as [Hc Hf]. apply negb_true_iff in Hc.
  now rewrite Hc, (IH Hf).
Qed.

Lemma printf_plain {Ext} (s : string) (st : state Ext) :
  nul_free s = true -> percent_free s = true ->
  printf (literal s) [] st
  = Some (Z.of_nat (String.length s),
          mkState (emit s (st_world st)) (st_loads st)).
Proof.
  intros Hn Hp. unfold printf, fprintf, literal.
  rewrite (c_str_terminated _ _ Hn), (format_percent_free _ _ Hp).
  reflexivity.
Qed.

Lemma printf_s_LF {Ext} (buf s : string) (st : state Ext) :
  c_str buf = Some s ->
  printf (literal ("%s" ++ LF)) [Some buf] st
  = Some (Z.of_nat (String.length (s ++ LF)),
          mkState (emit (s ++ LF) (st_world st)) (st_loads st)).
Proof.
  intros H. unfold printf, fprintf, literal. simpl. rewrite H. reflexivity.
Qed.

(** ** The counting loop *)

Lemma for_lt_step {Ext} (body : Z -> M Ext unit) (bound i : Z) :
  for_lt body bound i
  = if i <? bound
    then body i ;; (if i <? INT_MAX then for_lt body bound (i + 1) else undefined)
    else ret tt.
Proof.
  rewrite for_lt_equation_1. unfold for_lt_unfold_clause_1.
  destruct (Z_lt_dec i bound); destruct (Z.ltb_spec i bound); try lia;
    reflexivity.
Qed.

(** Once the counter has reached the bound the loop does nothing. *)
Lemma for_lt_done {Ext} (body : Z -> M Ext unit) (bound i : Z) (st : state Ext) :
  bound <= i -> for_lt body bound i st = Some (tt, st).
Proof.
  intros H. rewrite for_lt_step.
  destruct (Z.ltb_spec i bound); [lia | reflexivity].
Qed.

(** Below [INT_MAX], a loop whose body is always defined is defined: it
    terminates without the counter overflowing. *)
Lemma for_lt_defined {Ext} (body : Z -> M Ext unit) (bound : Z) :
  bound <= INT_MAX ->
  (forall i st, body i st <> None) ->
  forall i st, for_lt body bound i st <> None.
Proof.
  intros Hb Hbody i.
  remember (Z.to_nat (bound - i)) as n eqn:Hn.
  revert i Hn. induction n as [|n IH]; intros i Hn st; rewrite for_lt_step.
  - destruct (Z.ltb_spec i bound); [lia | discriminate].
  - destruct (Z.ltb_spec i bound); [|discriminate].
    unfold bind. destruct (body i st) as [[[] st']|] eqn:E.
    + destruct (Z.ltb_spec i INT_MAX); [|lia]. apply IH. lia.
    + now apply Hbody in E.
Qed.

Section Loop.

Context {Ext : Type}.
Variable argv : list char_ptr.
Variable body : Z -> M Ext unit.

(** The body reads [argv[i]] once and appends its text and a newline to
    standard output. *)
Hypothesis body_echoes :
  forall i p (st : state Ext),
    0 <= i ->
    nth_error argv (Z.to_nat i) = Some p ->
    is_c_string p = true ->
    body i st
    = Some (tt, mkState (emit (text_of p ++ LF) (st_world st))
                        (st_loads st ++ [i])%list).

(** Over a stretch [ptrs] of C strings that starts at index [i], the loop
    appends one line per string and reads each index once, in order. *)
Lemma for_lt_echoes (ptrs pre post : list char_ptr) :
  argv = (pre ++ ptrs ++ post)%list ->
  forallb is_c_string ptrs = true ->
  Z.of_nat (List.length pre) + Z.of_nat (List.length ptrs) <= INT_MAX ->
  forall st : state Ext,
    for_lt body (Z.of_nat (List.length pre) + Z.of_nat (List.length ptrs))
           (Z.of_nat (List.length pre)) st
    = Some (tt, mkState (emit (lines (map text_of ptrs)) (st_world st))
                        (st_loads st
                         ++ indices (Z.of_nat (List.length pre)) (List.length ptrs))%list).
Proof.
  revert pre. induction ptrs as [|p ptrs IH]; intros pre Hargv Hcs Hmax st.
  - rewrite for_lt_done by (simpl; lia). simpl.
    rewrite emit_nil, app_nil_r. now destruct st.
  - simpl in Hcs. apply andb_prop in Hcs as [Hp Hcs].
    rewrite for_lt_step.
    destruct (Z.ltb_spec (Z.of_nat (List.length pre))
                (Z.of_nat (List.length pre) + Z.of_nat (List.length (p :: ptrs))));
      [|simpl List.length in *; lia].
    unfold bind at 1.
    rewrite (body_echoes _ p st); [|lia| |exact Hp].
    2:{ rewrite Nat2Z.id, Hargv, nth_error_app2 by lia.
        now rewrite Nat.sub_diag. }
    destruct (Z.ltb_spec (Z.of_nat (List.length pre)) INT_MAX);
      [|simpl List.length in *; lia].
    specialize (IH (pre ++ [p])%list).
    rewrite length_app in IH. simpl List.length in *.
    replace (Z.of_nat (List.length pre + 1)) with (Z.of_nat (List.length pre) + 1)
      in IH by lia.
    replace (Z.of_nat (List.length pre) + Z.of_nat (S (List.length ptrs)))
      with (Z.of_nat (List.length pre) + 1 + Z.of_nat (List.length ptrs)) by lia.
    rewrite IH; [|now rewrite Hargv, <- app_assoc|exact Hcs|lia].
    simpl. rewrite emit_emit, <- app_assoc, !append_assoc. reflexivity.
Qed.

End Loop.

(** ** Reading the argument vector *)

Lemma load_in_range {Ext} (argv : list char_ptr) (i : Z) (p : char_ptr)
  (st : state Ext) :
  0 <= i ->
  nth_error argv (Z.to_nat i) = Some p ->
  load argv i st = Some (p, mkState (st_world st) (st_loads st ++ [i])%list).
Proof.
  intros Hi Hn. unfold load.
  assert (Z.to_nat i < List.length argv)%nat
    by (apply nth_error_Some; congruence).
  destruct (Z.leb_spec 0 i); [|lia].
  destruct (Z.ltb_spec i (Z.of_nat (List.length argv))); [|lia].
  simpl. now rewrite Hn.
Qed.

(** What a well-formed start-up looks like: either there is no argument at
    all, not even a program name, or the vector is the program name, the
    arguments and the closing null pointer. *)
Lemma wf_startup_inv (s : startup) :
  wf_startup s = true ->
  0 <= argc s <= INT_MAX /\
  ((argc s = 0 /\ arguments s = [])
   \/ exists p0 ptrs post,
        argv s = (([p0] ++ ptrs) ++ post)%list /\
        argc s = 1 + Z.of_nat (List.length ptrs) /\
        forallb is_c_string ptrs = true /\
        arguments s = map text_of ptrs).
Proof.
  unfold wf_startup. intros H.
  apply andb_prop in H as [H Hnull]. apply andb_prop in H as [H Hcs].
  apply andb_prop in H as [H Hlen]. apply andb_prop in H as [Hlo Hhi].
  apply Z.leb_le in Hlo. apply Z.leb_le in Hhi. apply Z.eqb_eq in Hlen.
  split; [lia|].
  destruct (Z.eq_dec (argc s) 0) as [E|E].
  - left. split; [exact E|]. unfold arguments. now rewrite E.
  - right.
    destruct (firstn (Z.to_nat (argc s)) (argv s)) as [|p0 ptrs] eqn:Ef.
    + apply (f_equal (@List.length _)) in Ef.
      rewrite length_firstn in Ef. simpl in Ef. lia.
    + exists p0, ptrs, (skipn (Z.to_nat (argc s)) (argv s)).
      assert (Hl : List.length (p0 :: ptrs) = Z.to_nat (argc s)).
      { rewrite <- Ef, length_firstn. lia. }
      simpl in Hcs. apply andb_prop in Hcs as [_ Hcs].
      repeat split.
      * change (([p0] ++ ptrs)%list) with (p0 :: ptrs).
        rewrite <- Ef. symmetry. apply firstn_skipn.
      * simpl in Hl. lia.
      * exact Hcs.
      * unfold arguments. now rewrite Ef.
Qed.

(** ** The shape shared by the two programs *)

Section Echo.

Context {Ext : Type} {A B : Type}.
Variable s : startup.
Variable first : M Ext A.
Variable body : Z -> M Ext unit.
Variable last : M Ext B.

Hypothesis first_emits :
  forall st : state Ext, exists a,
    first st = Some (a, mkState (emit (BEGIN_ARGS ++ LF) (st_world st)) (st_loads st)).

Hypothesis body_echoes :
  forall i p (st : state Ext),
    0 <= i ->
    nth_error (argv s) (Z.to_nat i) = Some p ->
    is_c_string p = true ->
    body i st
    = Some (tt, mkState (emit (text_of p ++ LF) (st_world st))
                        (st_loads st ++ [i])%list).

Hypothesis last_emits :
  forall st : state Ext, exists b,
    last st = Some (b, mkState (emit (END_ARGS ++ LF) (st_world st)) (st_loads st)).

Hypothesis s_wf : wf_startup s = true.

Lemma echo_shape (w : world Ext) :
  (first ;; for_lt body (argc s) 1 ;; last ;; ret 1) (mkState w [])
  = Some (1, mkState (emit (echoed (arguments s)) w)
                     (indices 1 (Z.to_nat (argc s - 1)))).
Proof.
  destruct (wf_startup_inv s s_wf) as [Hrange Hcases].
  unfold bind at 1. destruct (first_emits (mkState w [])) as [a ->].
  unfold bind at 1.
  assert (Hloop :
    for_lt body (argc s) 1 (mkState (emit (BEGIN_ARGS ++ LF) w) [])
    = Some (tt, mkState (emit (lines (arguments s)) (emit (BEGIN_ARGS ++ LF) w))
                        (indices 1 (Z.to_nat (argc s - 1))))).
  { destruct Hcases as [[E Hargs] | (p0 & ptrs & post & Hargv & Hc & Hcs & Hargs)].
    - rewrite for_lt_done by lia. rewrite Hargs, E. cbn [lines]. now rewrite emit_nil.
    - rewrite Hargs.
      pose proof (for_lt_echoes (argv s) body body_echoes ptrs [p0] post) as L.
      simpl List.length in L. change (Z.of_nat 1) with 1 in L.
      rewrite <- Hc in L.
      rewrite L; [|now rewrite Hargv, <- app_assoc|exact Hcs|lia].
      cbn [st_world st_loads List.app].
      replace (Z.to_nat (argc s - 1)) with (List.length ptrs) by lia.
      reflexivity. }
  simpl st_world. simpl st_loads. rewrite Hloop.
  unfold bind at 1.
  match goal with |- context [last ?st] => destruct (last_emits st) as [b ->] end.
  unfold ret. cbn [st_world st_loads]. rewrite !emit_emit. unfold echoed.
  now rewrite !append_assoc.
Qed.

End Echo.

(** ** The two programs *)

Lemma cc_body {Ext} (argv : list char_ptr) (i : Z) (p : char_ptr) (st : state Ext) :
  0 <= i ->
  nth_error argv (Z.to_nat i) = Some p ->
  is_c_string p = true ->
  (q <- load argv i ;; cout << q << literal LF ;; ret tt) st
  = Some (tt, mkState (emit (text_of p ++ LF) (st_world st))
                      (st_loads st ++ [i])%list).
Proof.
  intros Hi Hn Hp. unfold bind at 1. rewrite (load_in_range _ _ _ _ Hi Hn).
  destruct (is_c_string_text p Hp) as (buf & -> & Hs).
  unfold bind at 1. unfold literal.
  rewrite (cout_insert2 buf (text_of (Some buf)) _ LF); [reflexivity|exact Hs|reflexivity].
Qed.

Lemma cpp_body {Ext} (argv : list char_ptr) (i : Z) (p : char_ptr) (st : state Ext) :
  0 <= i ->
  nth_error argv (Z.to_nat i) = Some p ->
  is_c_string p = true ->
  (q <- load argv i ;; printf (literal ("%s" ++ LF)) [q] ;; ret tt) st
  = Some (tt, mkState (emit (text_of p ++ LF) (st_world st))
                      (st_loads st ++ [i])%list).
Proof.
  intros Hi Hn Hp. unfold bind at 1. rewrite (load_in_range _ _ _ _ Hi Hn).
  destruct (is_c_string_text p Hp) as (buf & -> & Hs).
  unfold bind at 1. now rewrite (printf_s_LF buf _ _ Hs).
Qed.

(** The complete behaviour of [print_args.cc] from a well-formed start-up. *)
Lemma cc_run {Ext} (s : startup) (w : world Ext) :
  wf_startup s = true ->
  run print_args_cc.main s w
  = Some (1, mkState (emit (echoed (arguments s)) w)
                     (indices 1 (Z.to_nat (argc s - 1)))).
Proof.
  intros Hwf. unfold run, print_args_cc.main.
  apply echo_shape; [| |  |exact Hwf].
  - intros st. eexists. now apply cout_insert.
  - intros. now apply cc_body.
  - intros st. eexists. now apply cout_insert.
Qed.

(** The complete behaviour of [print_args.cpp] from a well-formed start-up. *)
Lemma cpp_run {Ext} (s : startup) (w : world Ext) :
  wf_startup s = true ->
  run print_args_cpp.main s w
  = Some (1, mkState (emit (echoed (arguments s)) w)
                     (indices 1 (Z.to_nat (argc s - 1)))).
Proof.
  intros Hwf. unfold run, print_args_cpp.main.
  apply echo_shape; [| |  |exact Hwf].
  - intros st. eexists. now apply printf_plain.
  - intros. now apply cpp_body.
  - intros st. eexists. now apply printf_plain.
Qed.

Lemma cc_behaviour {Ext} (s : startup) (w : world Ext) :
  wf_startup s = true ->
  behaviour print_args_cc.main s w = Some (1, emit (echoed (arguments s)) w).
Proof. intros H. unfold behaviour. now rewrite (cc_run s w H). Qed.

Lemma cpp_behaviour {Ext} (s : startup) (w : world Ext) :
  wf_startup s = true ->
  behaviour print_args_cpp.main s w = Some (1, emit (echoed (arguments s)) w).
Proof. intros H. unfold behaviour. now rewrite (cpp_run s w H). Qed.

(** ** Launching with given arguments *)

Lemma forallb_is_c_string_literal (l : list string) :
  forallb is_c_string (map literal l) = true.
Proof.
  induction l as [|a l IH]; [reflexivity|].
  cbn [map forallb]. now rewrite is_c_string_literal, IH.
Qed.

Lemma map_text_of_literal (l : list string) :
  forallb nul_free l = true -> map text_of (map literal l) = l.
Proof.
  induction l as [|a l IH]; [reflexivity|].
  cbn [map forallb]. intros H. apply andb_prop in H as [Ha Hl].
  now rewrite (text_of_literal a Ha), (IH Hl).
Qed.

Lemma exec_firstn (prog : string) (args : list string) :
  firstn (Z.to_nat (argc (exec prog args))) (argv (exec prog args))
  = map literal (prog :: args).
Proof.
  unfold exec. cbn [argc argv]. rewrite Nat2Z.id.
  replace (S (List.length args)) with (List.length (map literal (prog :: args)) + 0)%nat
    by (rewrite length_map; simpl; lia).
  rewrite firstn_app_2. simpl firstn. now rewrite app_nil_r.
Qed.

Lemma exec_skipn (prog : string) (args : list string) :
  skipn (Z.to_nat (argc (exec prog args))) (argv (exec prog args)) = [None].
Proof.
  unfold exec. cbn [argc argv]. rewrite Nat2Z.id.
  rewrite skipn_app.
  rewrite skipn_all2 by (rewrite length_map; simpl; lia).
  rewrite length_map. simpl List.length. now rewrite Nat.sub_diag.
Qed.

Lemma exec_wf (prog : string) (args : list string) :
  passable args = true -> wf_startup (exec prog args) = true.
Proof.
  unfold passable. intros H. apply andb_prop in H as [_ Hmax].
  unfold wf_startup. rewrite exec_firstn, exec_skipn, forallb_is_c_string_literal.
  unfold exec at 1 2 3 4. cbn [argc argv]. rewrite Hmax.
  rewrite length_app, length_map. cbn [List.length forallb is_null andb].
  rewrite !andb_true_r. apply andb_true_intro. split.
  - apply Z.leb_le. lia.
  - apply Z.eqb_eq. lia.
Qed.

Lemma exec_arguments (prog : string) (args : list string) :
  passable args = true -> arguments (exec prog args) = args.
Proof.
  unfold passable. intros H. apply andb_prop in H as [Hnf _].
  unfold arguments. rewrite exec_firstn. cbn [map skipn].
  now apply map_text_of_literal.
Qed.

Lemma cc_exec {Ext} (prog : string) (args : list string) (w : world Ext) :
  passable args = true ->
  run print_args_cc.main (exec prog args) w
  = Some (1, mkState (emit (echoed args) w) (indices 1 (List.length args))).
Proof.
  intros H. rewrite (cc_run _ w (exec_wf prog args H)), (exec_arguments prog args H).
  replace (Z.to_nat (argc (exec prog args) - 1)) with (List.length args)
    by (unfold exec; cbn [argc]; lia).
  reflexivity.
Qed.

Lemma cpp_exec {Ext} (prog : string) (args : list string) (w : world Ext) :
  passable args = true ->
  run print_args_cpp.main (exec prog args) w
  = Some (1, mkState (emit (echoed args) w) (indices 1 (List.length args))).
Proof.
  intros H. rewrite (cpp_run _ w (exec_wf prog args H)), (exec_arguments prog args H).
  replace (Z.to_nat (argc (exec prog args) - 1)) with (List.length args)
    by (unfold exec; cbn [argc]; lia).
  reflexivity.
Qed.

Lemma passable_app (xs ys : list string) :
  passable (xs ++ ys) = true -> passable xs = true /\ passable ys = true.
Proof.
  unfold passable. rewrite forallb_app, length_app. intros H.
  apply andb_prop in H as [H Hmax]. apply andb_prop in H as [Hx Hy].
  apply Z.leb_le in Hmax. rewrite Hx, Hy. simpl.
  split; apply Z.leb_le; lia.
Qed.

Lemma cc_exec_behaviour {Ext} (prog : string) (args : list string) (w : world Ext) :
  passable args = true ->
  behaviour print_args_cc.main (exec prog args) w = Some (1, emit (echoed args) w).
Proof. intros H. unfold behaviour. now rewrite (cc_exec prog args w H). Qed.

Lemma cpp_exec_behaviour {Ext} (prog : string) (args : list string) (w : world Ext) :
  passable args = true ->
  behaviour print_args_cpp.main (exec prog args) w = Some (1, emit (echoed args) w).
Proof. intros H. unfold behaviour. now rewrite (cpp_exec prog args w H). Qed.

(** An argument with a newline inside is echoed exactly like the two
    arguments on either side of that newline. *)
Lemma echoed_newline_split (pre post : list string) (a b : string) :
  echoed (pre ++ (a ++ LF ++ b)%string :: post) = echoed (pre ++ a :: b :: post).
Proof.
  unfold echoed. rewrite !lines_app. cbn [lines]. now rewrite !append_assoc.
Qed.

Lemma indices_not_below (lo : Z) (n : nat) (i : Z) :
  i < lo -> ~ In i (indices lo n).
Proof.
  intros Hi Hin. pose proof (indices_range lo n) as R.
  rewrite Forall_forall in R. apply R in Hin. lia.
Qed.

(** ** Concrete runs *)

Example run_no_arguments :
  behaviour print_args_cc.main (exec "cc" []) (mkWorld "" "" "" tt)
  = Some (1, mkWorld "" (BEGIN_ARGS ++ LF ++ END_ARGS ++ LF) "" tt).
Proof. reflexivity. Qed.

Example run_c_foo :
  behaviour print_args_cpp.main (exec "cc" ["-c"; "foo.c"]) (mkWorld "" "" "" tt)
  = Some (1, mkWorld "" (BEGIN_ARGS ++ LF ++ "-c" ++ LF ++ "foo.c" ++ LF
                           ++ END_ARGS ++ LF) "" tt).
Proof. reflexivity. Qed.

Example run_flag_with_spaces :
  behaviour print_args_cc.main (exec "cc" ["--flag=value with spaces"])
    (mkWorld "" "" "" tt)
  = Some (1, mkWorld "" (BEGIN_ARGS ++ LF ++ "--flag=value with spaces" ++ LF
                           ++ END_ARGS ++ LF) "" tt).
Proof. reflexivity. Qed.

Example run_empty_argument :
  behaviour print_args_cpp.main (exec "cc" [""]) (mkWorld "" "" "" tt)
  = Some (1, mkWorld "" (BEGIN_ARGS ++ LF ++ LF ++ END_ARGS ++ LF) "" tt).
Proof. reflexivity. Qed.

(** An argument is data for [%s], never a format of its own. *)
Example run_percent_argument :
  behaviour print_args_cpp.main (exec "cc" ["%s%d%%"]) (mkWorld "" "" "" tt)
  = Some (1, mkWorld "" (BEGIN_ARGS ++ LF ++ "%s%d%%" ++ LF ++ END_ARGS ++ LF) "" tt).
Proof. reflexivity. Qed.

(** A vector that breaks the guarantees of the hosting environment (here a
    null pointer below [argc]) leaves the run undefined. *)
Example run_ill_formed :
  wf_startup (mkStartup 2 [literal "cc"; None; None]) = false
  /\ run print_args_cc.main (mkStartup 2 [literal "cc"; None; None])
       (mkWorld "" "" "" tt) = None
  /\ run print_args_cpp.main (mkStartup 2 [literal "cc"; None; None])
       (mkWorld "" "" "" tt) = None.
Proof. repeat split; reflexivity. Qed.

(** ** The specified behaviour *)

(** C1: launched with any argument list [args] (C strings, the empty list
    included), either program exits having appended to standard output
    exactly the begin-sentinel line, each argument verbatim followed by a
    newline in the original order, and the end-sentinel line; for the empty
    list nothing stands between the two sentinel lines. *)
Theorem echo_between_sentinels :
  forall (Ext : Type) (prog : string) (args : list string) (w : world Ext),
    passable args = true ->
    behaviour print_args_cc.main (exec prog args) w
    = Some (1, emit (BEGIN_ARGS ++ LF ++ lines args ++ END_ARGS ++ LF) w)
    /\ behaviour print_args_cpp.main (exec prog args) w
       = Some (1, emit (BEGIN_ARGS ++ LF ++ lines args ++ END_ARGS ++ LF) w)
    /\ behaviour print_args_cc.main (exec prog []) w
       = Some (1, emit (BEGIN_ARGS ++ LF ++ END_ARGS ++ LF) w)
    /\ behaviour print_args_cpp.main (exec prog []) w
       = Some (1, emit (BEGIN_ARGS ++ LF ++ END_ARGS ++ LF) w).
Proof.
  intros Ext prog args w H. repeat split.
  - exact (cc_exec_behaviour prog args w H).
  - exact (cpp_exec_behaviour prog args w H).
  - exact (cc_exec_behaviour prog [] w eq_refl).
  - exact (cpp_exec_behaviour prog [] w eq_refl).
Qed.

Lemma echo_between_sentinels_witness :
  passable ["-c"; "foo.c"] = true
  /\ behaviour print_args_cc.main (exec "clang" ["-c"; "foo.c"]) (mkWorld "" "" "" tt)
     = Some (1, emit (BEGIN_ARGS ++ LF ++ lines ["-c"; "foo.c"] ++ END_ARGS ++ LF)
                     (mkWorld "" "" "" tt)).
Proof.
  split; [reflexivity|].
  apply (echo_between_sentinels unit "clang" ["-c"; "foo.c"] (mkWorld "" "" "" tt)).
  reflexivity.
Defined.

(** C2: from every well-formed start-up, whatever the arguments and however
    many, either program terminates with exit code 1. *)
Theorem exit_code_is_one :
  forall (Ext : Type) (s : startup) (w : world Ext),
    wf_startup s = true ->
    (exists w', behaviour print_args_cc.main s w = Some (1, w'))
    /\ (exists w', behaviour print_args_cpp.main s w = Some (1, w')).
Proof.
  intros Ext s w H. split; eexists.
  - exact (cc_behaviour s w H).
  - exact (cpp_behaviour s w H).
Qed.

Lemma exit_code_is_one_witness :
  wf_startup (exec "emcc" ["-O2"; "a b"; ""]) = true
  /\ (exists w', behaviour print_args_cc.main (exec "emcc" ["-O2"; "a b"; ""])
                   (mkWorld "" "" "" tt) = Some (1, w')).
Proof.
  split; [reflexivity|].
  apply (exit_code_is_one unit (exec "emcc" ["-O2"; "a b"; ""]) (mkWorld "" "" "" tt)).
  reflexivity.
Defined.

(** C3: [print_args.cc] and [print_args.cpp] are behaviourally equivalent:
    from every well-formed start-up both terminate, with the same exit code
    and byte-identical standard output (indeed identical surroundings). *)
Theorem cc_cpp_equivalent :
  forall (Ext : Type) (s : startup) (w : world Ext),
    wf_startup s = true ->
    exists code w_cc w_cpp,
      behaviour print_args_cc.main s w = Some (code, w_cc)
      /\ behaviour print_args_cpp.main s w = Some (code, w_cpp)
      /\ w_stdout w_cc = w_stdout w_cpp
      /\ w_cc = w_cpp.
Proof.
  intros Ext s w H. exists 1, (emit (echoed (arguments s)) w), (emit (echoed (arguments s)) w).
  repeat split.
  - exact (cc_behaviour s w H).
  - exact (cpp_behaviour s w H).
Qed.

Lemma cc_cpp_equivalent_witness :
  wf_startup (exec "cc" ["%s"; "-I."]) = true
  /\ exists code w_cc w_cpp,
      behaviour print_args_cc.main (exec "cc" ["%s"; "-I."]) (mkWorld "" "" "" tt)
      = Some (code, w_cc)
      /\ behaviour print_args_cpp.main (exec "cc" ["%s"; "-I."]) (mkWorld "" "" "" tt)
         = Some (code, w_cpp)
      /\ w_stdout w_cc = w_stdout w_cpp
      /\ w_cc = w_cpp.
Proof.
  split; [reflexivity|].
  apply (cc_cpp_equivalent unit (exec "cc" ["%s"; "-I."]) (mkWorld "" "" "" tt)).
  reflexivity.
Defined.

(** C4: every argument after the program name reaches standard output as its
    exact text followed by a newline, at its place between the lines of the
    arguments before it and those of the arguments after it; nothing is
    escaped, quoted or otherwise transformed, whatever the text is (empty,
    containing whitespace, containing a percent sign). *)
Theorem argument_verbatim :
  forall (Ext : Type) (prog : string) (pre : list string) (a : string)
         (post : list string) (w : world Ext),
    passable (pre ++ a :: post) = true ->
    exists w_cc w_cpp,
      behaviour print_args_cc.main (exec prog (pre ++ a :: post)) w = Some (1, w_cc)
      /\ behaviour print_args_cpp.main (exec prog (pre ++ a :: post)) w = Some (1, w_cpp)
      /\ w_stdout w_cc
         = (w_stdout w ++ (BEGIN_ARGS ++ LF ++ lines pre)
              ++ a ++ LF ++ (lines post ++ END_ARGS ++ LF))%string
      /\ w_stdout w_cpp = w_stdout w_cc.
Proof.
  intros Ext prog pre a post w H.
  exists (emit (echoed (pre ++ a :: post)) w), (emit (echoed (pre ++ a :: post)) w).
  repeat split.
  - exact (cc_exec_behaviour prog _ w H).
  - exact (cpp_exec_behaviour prog _ w H).
  - unfold emit, echoed. cbn [w_stdout]. rewrite lines_app. cbn [lines].
    now rewrite !append_assoc.
Qed.

Lemma argument_verbatim_witness :
  passable (["-c"] ++ "--flag=value with spaces" :: [""]) = true
  /\ exists w_cc w_cpp,
      behaviour print_args_cc.main
        (exec "cc" (["-c"] ++ "--flag=value with spaces" :: [""])) (mkWorld "" "" "" tt)
      = Some (1, w_cc)
      /\ behaviour print_args_cpp.main
           (exec "cc" (["-c"] ++ "--flag=value with spaces" :: [""])) (mkWorld "" "" "" tt)
         = Some (1, w_cpp)
      /\ w_stdout w_cc
         = (w_stdout (mkWorld "" "" "" tt) ++ (BEGIN_ARGS ++ LF ++ lines ["-c"])
              ++ "--flag=value with spaces" ++ LF ++ (lines [""] ++ END_ARGS ++ LF))%string
      /\ w_stdout w_cpp = w_stdout w_cc.
Proof.
  split; [reflexivity|].
  apply (argument_verbatim unit "cc" ["-c"] "--flag=value with spaces" [""]
           (mkWorld "" "" "" tt)).
  reflexivity.
Defined.

(** C5: element 0 of the argument vector, the program's own name, is never
    read and so never written: two launches that differ only in the program
    name have the same output and the same exit code, the output is the one
    determined by the arguments alone, and index 0 does not occur among the
    indices read. *)
Theorem program_name_excluded :
  forall (Ext : Type) (prog1 prog2 : string) (args : list string) (w : world Ext),
    passable args = true ->
    (behaviour print_args_cc.main (exec prog1 args) w
     = behaviour print_args_cc.main (exec prog2 args) w
     /\ exists st,
          run print_args_cc.main (exec prog1 args) w = Some (1, st)
          /\ st_world st = emit (echoed args) w
          /\ st_loads st = indices 1 (List.length args)
          /\ ~ In 0 (st_loads st))
    /\ (behaviour print_args_cpp.main (exec prog1 args) w
        = behaviour print_args_cpp.main (exec prog2 args) w
        /\ exists st,
             run print_args_cpp.main (exec prog1 args) w = Some (1, st)
             /\ st_world st = emit (echoed args) w
             /\ st_loads st = indices 1 (List.length args)
             /\ ~ In 0 (st_loads st)).
Proof.
  intros Ext prog1 prog2 args w H. split; split.
  - now rewrite !cc_exec_behaviour.
  - eexists. split; [exact (cc_exec prog1 args w H)|].
    cbn [st_world st_loads]. repeat split. apply indices_not_below. lia.
  - now rewrite !cpp_exec_behaviour.
  - eexists. split; [exact (cpp_exec prog1 args w H)|].
    cbn [st_world st_loads]. repeat split. apply indices_not_below. lia.
Qed.

Lemma program_name_excluded_witness :
  passable ["-c"; "x.c"] = true
  /\ behaviour print_args_cc.main (exec "clang" ["-c"; "x.c"]) (mkWorld "" "" "" tt)
     = behaviour print_args_cc.main (exec "/usr/bin/gcc" ["-c"; "x.c"]) (mkWorld "" "" "" tt).
Proof.
  split; [reflexivity|].
  apply (program_name_excluded unit "clang" "/usr/bin/gcc" ["-c"; "x.c"]
           (mkWorld "" "" "" tt)).
  reflexivity.
Defined.

(** C6: from every well-formed start-up either program runs to completion:
    the loop over the arguments terminates, [main] reaches its return
    statement with value 1, and the pass is linear: the argument vector is
    read once at each of the indices 1, 2, ..., argc - 1, in that order, a
    sequence that depends on the loop bound [argc] only. *)
Theorem runs_to_completion :
  forall (Ext : Type) (s : startup) (w : world Ext),
    wf_startup s = true ->
    (exists st,
        run print_args_cc.main s w = Some (1, st)
        /\ st_loads st = indices 1 (Z.to_nat (argc s - 1)))
    /\ (exists st,
           run print_args_cpp.main s w = Some (1, st)
           /\ st_loads st = indices 1 (Z.to_nat (argc s - 1))).
Proof.
  intros Ext s w H. split; eexists; split.
  - exact (cc_run s w H).
  - reflexivity.
  - exact (cpp_run s w H).
  - reflexivity.
Qed.

Lemma runs_to_completion_witness :
  wf_startup (exec "cc" ["a"; "b"; "c"]) = true
  /\ exists st,
       run print_args_cc.main (exec "cc" ["a"; "b"; "c"]) (mkWorld "" "" "" tt)
       = Some (1, st)
       /\ st_loads st = indices 1 (Z.to_nat (argc (exec "cc" ["a"; "b"; "c"]) - 1)).
Proof.
  split; [reflexivity|].
  apply (runs_to_completion unit (exec "cc" ["a"; "b"; "c"]) (mkWorld "" "" "" tt)).
  reflexivity.
Defined.

(** C7: the programs are deterministic functions of the argument vector: two
    runs from the same start-up, in any two surroundings (whatever standard
    input, the environment, the file system or the network hold), end with
    the same exit code and append the same bytes to standard output. *)
Theorem output_determined_by_arguments :
  forall (Ext : Type) (s : startup) (w1 w2 : world Ext),
    wf_startup s = true ->
    (exists code out w1' w2',
        behaviour print_args_cc.main s w1 = Some (code, w1')
        /\ behaviour print_args_cc.main s w2 = Some (code, w2')
        /\ w_stdout w1' = (w_stdout w1 ++ out)%string
        /\ w_stdout w2' = (w_stdout w2 ++ out)%string)
    /\ (exists code out w1' w2',
           behaviour print_args_cpp.main s w1 = Some (code, w1')
           /\ behaviour print_args_cpp.main s w2 = Some (code, w2')
           /\ w_stdout w1' = (w_stdout w1 ++ out)%string
           /\ w_stdout w2' = (w_stdout w2 ++ out)%string).
Proof.
  intros Ext s w1 w2 H.
  split; exists 1, (echoed (arguments s)),
                (emit (echoed (arguments s)) w1), (emit (echoed (arguments s)) w2);
    repeat split.
  - exact (cc_behaviour s w1 H).
  - exact (cc_behaviour s w2 H).
  - exact (cpp_behaviour s w1 H).
  - exact (cpp_behaviour s w2 H).
Qed.

Lemma output_determined_by_arguments_witness :
  wf_startup (exec "cc" ["-c"]) = true
  /\ exists code out w1' w2',
       behaviour print_args_cc.main (exec "cc" ["-c"]) (mkWorld "typed input" "" "" 0%nat)
       = Some (code, w1')
       /\ behaviour print_args_cc.main (exec "cc" ["-c"]) (mkWorld "" "earlier" "noise" 7%nat)
          = Some (code, w2')
       /\ w_stdout w1' = (w_stdout (mkWorld "typed input" "" "" 0%nat) ++ out)%string
       /\ w_stdout w2' = (w_stdout (mkWorld "" "earlier" "noise" 7%nat) ++ out)%string.
Proof.
  split; [reflexivity|].
  apply (output_determined_by_arguments nat (exec "cc" ["-c"])
           (mkWorld "typed input" "" "" 0%nat) (mkWorld "" "earlier" "noise" 7%nat)).
  reflexivity.
Defined.

(** C8: the only effect of either program is to append to standard output:
    what standard output held before is kept as a prefix, standard error
    receives no byte, standard input is not consumed and the rest of the
    surroundings (file system, network, environment) is left as it was. *)
Theorem only_stdout_changes :
  forall (Ext : Type) (s : startup) (w : world Ext),
    wf_startup s = true ->
    (exists out w',
        behaviour print_args_cc.main s w = Some (1, w')
        /\ w_stdout w' = (w_stdout w ++ out)%string
        /\ w_stderr w' = w_stderr w
        /\ w_stdin w' = w_stdin w
        /\ w_ext w' = w_ext w)
    /\ (exists out w',
           behaviour print_args_cpp.main s w = Some (1, w')
           /\ w_stdout w' = (w_stdout w ++ out)%string
           /\ w_stderr w' = w_stderr w
           /\ w_stdin w' = w_stdin w
           /\ w_ext w' = w_ext w).
Proof.
  intros Ext s w H.
  split; exists (echoed (arguments s)), (emit (echoed (arguments s)) w); repeat split.
  - exact (cc_behaviour s w H).
  - exact (cpp_behaviour s w H).
Qed.

Lemma only_stdout_changes_witness :
  wf_startup (exec "cc" ["-c"; "foo.c"]) = true
  /\ exists out w',
       behaviour print_args_cc.main (exec "cc" ["-c"; "foo.c"])
         (mkWorld "pending input" "" "earlier diagnostics" tt) = Some (1, w')
       /\ w_stdout w' = (w_stdout (mkWorld "pending input" "" "earlier diagnostics" tt) ++ out)%string
       /\ w_stderr w' = w_stderr (mkWorld "pending input" "" "earlier diagnostics" tt)
       /\ w_stdin w' = w_stdin (mkWorld "pending input" "" "earlier diagnostics" tt)
       /\ w_ext w' = w_ext (mkWorld "pending input" "" "earlier diagnostics" tt).
Proof.
  split; [reflexivity|].
  apply (only_stdout_changes unit (exec "cc" ["-c"; "foo.c"])
           (mkWorld "pending input" "" "earlier diagnostics" tt)).
  reflexivity.
Defined.

(** C9: the output does not determine the argument vector.  An argument
    with a newline inside and the two arguments obtained by splitting it at
    that newline are distinct vectors with byte-identical output, also when
    one of the pieces is a sentinel string; and an argument equal to the end
    sentinel makes the output start with the complete output of the empty
    vector.  Hence no decoder recovers the arguments from the output of every
    launch. *)
Theorem output_not_injective :
  (exists args1 args2 : list string,
      args1 <> args2 /\ passable args1 = true /\ passable args2 = true
      /\ forall (Ext : Type) (prog : string) (w : world Ext),
           (exists w', behaviour print_args_cc.main (exec prog args1) w = Some (1, w')
                       /\ behaviour print_args_cc.main (exec prog args2) w = Some (1, w'))
           /\ (exists w', behaviour print_args_cpp.main (exec prog args1) w = Some (1, w')
                          /\ behaviour print_args_cpp.main (exec prog args2) w = Some (1, w')))
  /\ (exists args1 args2 : list string,
         args1 <> args2 /\ passable args1 = true /\ passable args2 = true
         /\ In END_ARGS args1
         /\ forall (Ext : Type) (prog : string) (w : world Ext),
              behaviour print_args_cc.main (exec prog args1) w
              = behaviour print_args_cc.main (exec prog args2) w
              /\ behaviour print_args_cpp.main (exec prog args1) w
                 = behaviour print_args_cpp.main (exec prog args2) w)
  /\ (forall (Ext : Type) (prog : string) (w : world Ext),
         behaviour print_args_cc.main (exec prog [END_ARGS]) w
         = Some (1, emit (END_ARGS ++ LF) (emit (echoed []) w))
         /\ behaviour print_args_cpp.main (exec prog [END_ARGS]) w
            = Some (1, emit (END_ARGS ++ LF) (emit (echoed []) w)))
  /\ (forall (Ext : Type) (prog : string) (w : world Ext),
         ~ exists decode : string -> list string,
             forall (args : list string) (code : Z) (w' : world Ext),
               passable args = true ->
               behaviour print_args_cc.main (exec prog args) w = Some (code, w') ->
               decode (w_stdout w') = args)
  /\ (forall (Ext : Type) (prog : string) (w : world Ext),
         ~ exists decode : string -> list string,
             forall (args : list string) (code : Z) (w' : world Ext),
               passable args = true ->
               behaviour print_args_cpp.main (exec prog args) w = Some (code, w') ->
               decode (w_stdout w') = args).
Proof.
  assert (Hsplit : echoed [("a" ++ LF ++ "b")%string] = echoed ["a"; "b"])
    by exact (echoed_newline_split [] [] "a" "b").
  split; [|split; [|split; [|split]]].
  - exists [("a" ++ LF ++ "b")%string], ["a"; "b"].
    split; [discriminate|]. split; [reflexivity|]. split; [reflexivity|].
    intros Ext prog w. split; exists (emit (echoed ["a"; "b"]) w).
    + rewrite !cc_exec_behaviour by reflexivity. now rewrite Hsplit.
    + rewrite !cpp_exec_behaviour by reflexivity. now rewrite Hsplit.
  - exists ["x"; END_ARGS], [("x" ++ LF ++ END_ARGS)%string].
    split; [discriminate|]. split; [reflexivity|]. split; [reflexivity|].
    split; [right; left; reflexivity|].
    intros Ext prog w.
    rewrite !cc_exec_behaviour, !cpp_exec_behaviour by reflexivity.
    assert (E : echoed [("x" ++ LF ++ END_ARGS)%string] = echoed ["x"; END_ARGS])
      by exact (echoed_newline_split [] [] "x" END_ARGS).
    now rewrite E.
  - intros Ext prog w.
    rewrite cc_exec_behaviour, cpp_exec_behaviour by reflexivity.
    rewrite emit_emit. split; reflexivity.
  - intros Ext prog w [decode Hd].
    pose proof (Hd ["a"; "b"] _ _ eq_refl
                  (cc_exec_behaviour prog ["a"; "b"] w eq_refl)) as H2.
    pose proof (Hd [("a" ++ LF ++ "b")%string] _ _ eq_refl
                  (cc_exec_behaviour prog [("a" ++ LF ++ "b")%string] w eq_refl)) as H1.
    rewrite Hsplit, H2 in H1. discriminate.
  - intros Ext prog w [decode Hd].
    pose proof (Hd ["a"; "b"] _ _ eq_refl
                  (cpp_exec_behaviour prog ["a"; "b"] w eq_refl)) as H2.
    pose proof (Hd [("a" ++ LF ++ "b")%string] _ _ eq_refl
                  (cpp_exec_behaviour prog [("a" ++ LF ++ "b")%string] w eq_refl)) as H1.
    rewrite Hsplit, H2 in H1. discriminate.
Qed.

(** C10: for every argc >= 0 the loop reads the argument vector at indices
    from 1 to argc - 1 only, all of them inside the array, so the run is
    defined; when argc = 0 (no argument at all, not even a program name) the
    loop body is never executed, exactly the two sentinel lines are emitted
    and 1 is returned. *)
Theorem argv_reads_in_range :
  forall (Ext : Type) (s : startup) (w : world Ext),
    wf_startup s = true ->
    (exists st,
        run print_args_cc.main s w = Some (1, st)
        /\ Forall (fun i => 1 <= i < argc s) (st_loads st)
        /\ Forall (fun i => 0 <= i < Z.of_nat (List.length (argv s))) (st_loads st)
        /\ (argc s = 0 ->
            st_loads st = []
            /\ st_world st = emit (BEGIN_ARGS ++ LF ++ END_ARGS ++ LF) w))
    /\ (exists st,
           run print_args_cpp.main s w = Some (1, st)
           /\ Forall (fun i => 1 <= i < argc s) (st_loads st)
           /\ Forall (fun i => 0 <= i < Z.of_nat (List.length (argv s))) (st_loads st)
           /\ (argc s = 0 ->
               st_loads st = []
               /\ st_world st = emit (BEGIN_ARGS ++ LF ++ END_ARGS ++ LF) w)).
Proof.
  intros Ext s w H.
  assert (Hlen : Z.of_nat (List.length (argv s)) = argc s + 1).
  { unfold wf_startup in H. apply andb_prop in H as [H _].
    apply andb_prop in H as [H _]. apply andb_prop in H as [_ H].
    now apply Z.eqb_eq in H. }
  assert (R1 : Forall (fun i => 1 <= i < argc s) (indices 1 (Z.to_nat (argc s - 1)))).
  { eapply Forall_impl; [|apply indices_range]. cbv beta. intros; lia. }
  assert (R2 : Forall (fun i => 0 <= i < Z.of_nat (List.length (argv s)))
                 (indices 1 (Z.to_nat (argc s - 1)))).
  { eapply Forall_impl; [|exact R1]. cbv beta. intros; lia. }
  assert (R3 : argc s = 0 ->
               indices 1 (Z.to_nat (argc s - 1)) = []
               /\ emit (echoed (arguments s)) w
                  = emit (BEGIN_ARGS ++ LF ++ END_ARGS ++ LF) w).
  { intros E. unfold arguments. rewrite E. split; reflexivity. }
  split; eexists; (split; [|cbn [st_world st_loads]; repeat split]).
  - exact (cc_run s w H).
  - exact R1.
  - exact R2.
  - now apply R3.
  - now apply R3.
  - exact (cpp_run s w H).
  - exact R1.
  - exact R2.
  - now apply R3.
  - now apply R3.
Qed.

Lemma argv_reads_in_range_witness :
  wf_startup (mkStartup 0 [None]) = true
  /\ exists st,
       run print_args_cpp.main (mkStartup 0 [None]) (mkWorld "" "" "" tt) = Some (1, st)
       /\ Forall (fun i => 1 <= i < argc (mkStartup 0 [None])) (st_loads st)
       /\ Forall (fun i => 0 <= i < Z.of_nat (List.length (argv (mkStartup 0 [None]))))
            (st_loads st)
       /\ (argc (mkStartup 0 [None]) = 0 ->
           st_loads st = []
           /\ st_world st = emit (BEGIN_ARGS ++ LF ++ END_ARGS ++ LF) (mkWorld "" "" "" tt)).
Proof.
  split; [reflexivity|].
  apply (argv_reads_in_range unit (mkStartup 0 [None]) (mkWorld "" "" "" tt)).
  reflexivity.
Defined.

(** * Further properties of the code *)

(** ** The loop as an iteration over its indices *)

Lemma for_lt_iterates {Ext} (body : Z -> M Ext unit) (bound : Z) :
  bound <= INT_MAX ->
  forall (i : Z) (st : state Ext),
    for_lt body bound i st = each body (indices i (Z.to_nat (bound - i))) st.
Proof.
  intros Hb i.
  remember (Z.to_nat (bound - i)) as n eqn:Hn.
  revert i Hn. induction n as [|n IH]; intros i Hn st.
  - rewrite for_lt_done by lia. reflexivity.
  - rewrite for_lt_step. destruct (Z.ltb_spec i bound); [|lia].
    cbn [indices each]. unfold bind.
    destruct (body i st) as [[[] st']|]; [|reflexivity].
    destruct (Z.ltb_spec i INT_MAX); [|lia].
    apply IH. lia.
Qed.

(** X1: the loop [for (int i = start; i < bound; ++i)] with a bound that is
    an [int] runs its body once for each of start, start + 1, ...,
    bound - 1, in increasing order, and not at all when bound <= start; the
    increment never overflows. *)
Theorem for_lt_each :
  forall (Ext : Type) (body : Z -> M Ext unit) (bound start : Z) (st : state Ext),
    bound <= INT_MAX ->
    for_lt body bound start st
    = each body (indices start (Z.to_nat (bound - start))) st.
Proof.
  intros Ext body bound start st Hb. exact (for_lt_iterates body bound Hb start st).
Qed.

Lemma for_lt_each_witness :
  3 <= INT_MAX
  /\ for_lt (fun i => write Stdout (if i =? 1 then "a" else "b")) 3 1
       (mkState (mkWorld "" "" "" tt) [])
     = each (fun i => write Stdout (if i =? 1 then "a" else "b"))
         (indices 1 (Z.to_nat (3 - 1))) (mkState (mkWorld "" "" "" tt) []).
Proof.
  split; [unfold INT_MAX; lia|].
  apply (for_lt_each unit (fun i => write Stdout (if i =? 1 then "a" else "b")) 3 1
           (mkState (mkWorld "" "" "" tt) [])).
  unfold INT_MAX; lia.
Defined.

Lemma each_defined_inv {Ext} (body : Z -> M Ext unit) (P : Z -> Prop) :
  (forall i st, body i st <> None -> P i) ->
  forall idx st, each body idx st <> None -> Forall P idx.
Proof.
  intros Hbody idx. induction idx as [|i idx IH]; intros st H; constructor.
  - apply (Hbody i st). intros E. apply H. cbn [each]. unfold bind. now rewrite E.
  - cbn [each] in H. unfold bind in H.
    destruct (body i st) as [[[] st']|]; [|congruence].
    now apply (IH st').
Qed.

Lemma indices_Forall_nth (P : Z -> Prop) (lo : Z) (n : nat) :
  Forall P (indices lo n) ->
  forall j, (j < n)%nat -> P (lo + Z.of_nat j).
Proof.
  revert lo. induction n as [|n IH]; intros lo H j Hj; [lia|].
  cbn [indices] in H. inversion H as [|? ? H0 Hrest]; subst.
  destruct j as [|j].
  - now replace (lo + Z.of_nat 0) with lo by lia.
  - replace (lo + Z.of_nat (S j)) with (lo + 1 + Z.of_nat j) by lia.
    apply IH; [exact Hrest | lia].
Qed.

Lemma firstn_c_strings (l : list char_ptr) (n : nat) :
  (forall j, (j < n)%nat ->
             exists p, nth_error l j = Some p /\ is_c_string p = true) ->
  List.length (firstn n l) = n /\ forallb is_c_string (firstn n l) = true.
Proof.
  revert l. induction n as [|n IH]; intros l H; [now split|].
  destruct l as [|p l].
  - destruct (H O) as (q & Hq & _); [lia | discriminate].
  - destruct (IH l) as [Hlen Hall].
    { intros j Hj. apply (H (S j)). lia. }
    destruct (H O) as (q & Hq & Hc); [lia|].
    cbn [nth_error] in Hq. inversion Hq; subst q.
    cbn [firstn List.length forallb]. now rewrite Hlen, Hc, Hall.
Qed.

(** ** What the programs need from the argument vector *)

Section Needs.

Context {Ext : Type} {A B : Type}.
Variable s : startup.
Variable first : M Ext A.
Variable body : Z -> M Ext unit.
Variable last : M Ext B.

Hypothesis first_emits :
  forall st : state Ext, exists a,
    first st = Some (a, mkState (emit (BEGIN_ARGS ++ LF) (st_world st)) (st_loads st)).

Hypothesis body_echoes :
  forall i p (st : state Ext),
    0 <= i ->
    nth_error (argv s) (Z.to_nat i) = Some p ->
    is_c_string p = true ->
    body i st
    = Some (tt, mkState (emit (text_of p ++ LF) (st_world st))
                        (st_loads st ++ [i])%list).

(** The body is defined only on an index that holds a C string. *)
Hypothesis body_needs :
  forall i (st : state Ext),
    body i st <> None ->
    0 <= i /\ exists p, nth_error (argv s) (Z.to_nat i) = Some p
                        /\ is_c_string p = true.

Hypothesis last_emits :
  forall st : state Ext, exists b,
    last st = Some (b, mkState (emit (END_ARGS ++ LF) (st_world st)) (st_loads st)).

Hypothesis argc_int : argc s <= INT_MAX.

Lemma shape_readable (w : world Ext) :
  readable s = true ->
  (first ;; for_lt body (argc s) 1 ;; last ;; ret 1) (mkState w [])
  = Some (1, mkState (emit (echoed (map text_of (operands s))) w)
                     (indices 1 (Z.to_nat (argc s - 1)))).
Proof.
  clear body_needs. unfold readable. intros H. apply andb_prop in H as [Hlen Hcs].
  apply Nat.eqb_eq in Hlen.
  unfold bind at 1. destruct (first_emits (mkState w [])) as [a ->].
  unfold bind at 1.
  assert (Hloop :
    for_lt body (argc s) 1 (mkState (emit (BEGIN_ARGS ++ LF) w) [])
    = Some (tt, mkState (emit (lines (map text_of (operands s)))
                              (emit (BEGIN_ARGS ++ LF) w))
                        (indices 1 (Z.to_nat (argc s - 1))))).
  { destruct (Z_le_gt_dec (argc s) 1) as [Hle|Hgt].
    - rewrite for_lt_done by lia.
      replace (Z.to_nat (argc s - 1)) with O in * by lia.
      destruct (operands s); [|discriminate].
      cbn [map lines indices]. now rewrite emit_nil.
    - unfold operands in *. destruct (argv s) as [|p0 rest] eqn:Hargv.
      + rewrite skipn_nil, firstn_nil in Hlen. simpl in Hlen. lia.
      + cbn [skipn] in *.
        pose proof (for_lt_echoes (p0 :: rest) body body_echoes
                      (firstn (Z.to_nat (argc s - 1)) rest) [p0]
                      (skipn (Z.to_nat (argc s - 1)) rest)) as L.
        rewrite Hlen in L. simpl List.length in L. change (Z.of_nat 1) with 1 in L.
        replace (1 + Z.of_nat (Z.to_nat (argc s - 1))) with (argc s) in L by lia.
        rewrite L; [reflexivity| |exact Hcs|lia].
        rewrite firstn_skipn. reflexivity. }
  simpl st_world. simpl st_loads. rewrite Hloop.
  unfold bind at 1.
  match goal with |- context [last ?st] => destruct (last_emits st) as [b ->] end.
  unfold ret. cbn [st_world st_loads]. rewrite !emit_emit. unfold echoed.
  now rewrite !append_assoc.
Qed.

Lemma shape_defined (w : world Ext) :
  (first ;; for_lt body (argc s) 1 ;; last ;; ret 1) (mkState w []) <> None ->
  readable s = true.
Proof.
  clear body_echoes last_emits. intros H. unfold bind at 1 in H.
  destruct (first_emits (mkState w [])) as [a Ha]. rewrite Ha in H.
  unfold bind at 1 in H.
  match type of H with
  | context [for_lt body (argc s) 1 ?st0] =>
      destruct (for_lt body (argc s) 1 st0) as [[[] st1]|] eqn:Hloop;
        [clear H | congruence]
  end.
  rewrite (for_lt_iterates body (argc s) argc_int) in Hloop.
  assert (Hall : Forall (fun i => exists p, nth_error (argv s) (Z.to_nat i) = Some p
                                            /\ is_c_string p = true)
                   (indices 1 (Z.to_nat (argc s - 1)))).
  { eapply each_defined_inv; [|rewrite Hloop; discriminate].
    intros i st Hi. now apply body_needs in Hi. }
  destruct (firstn_c_strings (skipn 1 (argv s)) (Z.to_nat (argc s - 1)))
    as [Hlen Hcs].
  { intros j Hj.
    destruct (indices_Forall_nth _ _ _ Hall j Hj) as (p & Hp & Hc).
    exists p. split; [|exact Hc].
    rewrite nth_error_skipn.
    now replace (Z.to_nat (1 + Z.of_nat j)) with (1 + j)%nat in Hp by lia. }
  unfold readable, operands. rewrite Hlen, Hcs, Nat.eqb_refl. reflexivity.
Qed.

End Needs.

Lemma cc_body_needs {Ext} (argv : list char_ptr) (i : Z) (st : state Ext) :
  (q <- load argv i ;; cout << q << literal LF ;; ret tt) st <> None ->
  0 <= i /\ exists p, nth_error argv (Z.to_nat i) = Some p /\ is_c_string p = true.
Proof.
  unfold bind at 1. unfold load.
  destruct (Z.leb_spec 0 i); [|cbn [andb]; congruence].
  destruct (i <? Z.of_nat (List.length argv)); [|cbn [andb]; congruence].
  cbn [andb]. destruct (nth_error argv (Z.to_nat i)) as [p|]; [|congruence].
  intros Hd. split; [assumption|]. exists p. split; [reflexivity|].
  destruct p as [buf|]; cbn [is_c_string].
  - destruct (c_str buf) eqn:E; [reflexivity|].
    exfalso. apply Hd. unfold bind, insert, cout, ret. now rewrite E.
  - exfalso. apply Hd. reflexivity.
Qed.

Lemma cpp_body_needs {Ext} (argv : list char_ptr) (i : Z) (st : state Ext) :
  (q <- load argv i ;; printf (literal ("%s" ++ LF)) [q] ;; ret tt) st <> None ->
  0 <= i /\ exists p, nth_error argv (Z.to_nat i) = Some p /\ is_c_string p = true.
Proof.
  unfold bind at 1. unfold load.
  destruct (Z.leb_spec 0 i); [|cbn [andb]; congruence].
  destruct (i <? Z.of_nat (List.length argv)); [|cbn [andb]; congruence].
  cbn [andb]. destruct (nth_error argv (Z.to_nat i)) as [p|]; [|congruence].
  intros Hd. split; [assumption|]. exists p. split; [reflexivity|].
  destruct p as [buf|]; cbn [is_c_string].
  - destruct (c_str buf) eqn:E; [reflexivity|].
    exfalso. apply Hd. unfold bind, printf, fprintf, literal. simpl. now rewrite E.
  - exfalso. apply Hd. reflexivity.
Qed.

Lemma cc_run_readable {Ext} (s : startup) (w : world Ext) :
  argc s <= INT_MAX ->
  readable s = true ->
  run print_args_cc.main s w
  = Some (1, mkState (emit (echoed (map text_of (operands s))) w)
                     (indices 1 (Z.to_nat (argc s - 1)))).
Proof.
  intros Hint Hr.
  unfold run, print_args_cc.main. apply shape_readable; [| | |exact Hint|exact Hr].
  - intros st. eexists. now apply cout_insert.
  - intros. now apply cc_body.
  - intros st. eexists. now apply cout_insert.
Qed.

Lemma cpp_run_readable {Ext} (s : startup) (w : world Ext) :
  argc s <= INT_MAX ->
  readable s = true ->
  run print_args_cpp.main s w
  = Some (1, mkState (emit (echoed (map text_of (operands s))) w)
                     (indices 1 (Z.to_nat (argc s - 1)))).
Proof.
  intros Hint Hr.
  unfold run, print_args_cpp.main. apply shape_readable; [| | |exact Hint|exact Hr].
  - intros st. eexists. now apply printf_plain.
  - intros. now apply cpp_body.
  - intros st. eexists. now apply printf_plain.
Qed.

(** X2: the programs ask of their caller only that [argc] be an [int] and
    that [argv[1]] to [argv[argc - 1]] point to C strings.  Then, whatever
    [argv[0]] and [argv[argc]] hold (null or not), however long the array is
    beyond that, and also when [argc] is zero or negative, the run is
    defined, returns 1, echoes exactly the texts at indices 1 to argc - 1
    and reads exactly those indices. *)
Theorem needs_only_the_operands :
  forall (Ext : Type) (s : startup) (w : world Ext),
    argc s <= INT_MAX ->
    readable s = true ->
    run print_args_cc.main s w
    = Some (1, mkState (emit (echoed (map text_of (operands s))) w)
                       (indices 1 (Z.to_nat (argc s - 1))))
    /\ run print_args_cpp.main s w
       = Some (1, mkState (emit (echoed (map text_of (operands s))) w)
                          (indices 1 (Z.to_nat (argc s - 1)))).
Proof.
  intros Ext s w Hint Hr. split.
  - exact (cc_run_readable s w Hint Hr).
  - exact (cpp_run_readable s w Hint Hr).
Qed.

Lemma needs_only_the_operands_witness :
  argc (mkStartup 3 [None; literal "-c"; literal "foo.c"; literal "junk"]) <= INT_MAX
  /\ readable (mkStartup 3 [None; literal "-c"; literal "foo.c"; literal "junk"]) = true
  /\ wf_startup (mkStartup 3 [None; literal "-c"; literal "foo.c"; literal "junk"]) = false
  /\ run print_args_cc.main
       (mkStartup 3 [None; literal "-c"; literal "foo.c"; literal "junk"])
       (mkWorld "" "" "" tt)
     = Some (1, mkState
                  (emit (echoed (map text_of
                     (operands (mkStartup 3 [None; literal "-c"; literal "foo.c";
                                             literal "junk"]))))
                     (mkWorld "" "" "" tt))
                  (indices 1 (Z.to_nat
                     (argc (mkStartup 3 [None; literal "-c"; literal "foo.c";
                                         literal "junk"]) - 1)))).
Proof.
  split; [unfold INT_MAX; simpl; lia|]. split; [reflexivity|]. split; [reflexivity|].
  apply (needs_only_the_operands unit
           (mkStartup 3 [None; literal "-c"; literal "foo.c"; literal "junk"])
           (mkWorld "" "" "" tt)).
  - unfold INT_MAX; simpl; lia.
  - reflexivity.
Defined.

(** X3: that requirement is exact.  For an [int] argc, the run of either
    program is defined if and only if [argv[1]] to [argv[argc - 1]] all
    exist and point to C strings: a missing element, a null pointer or an
    unterminated array at one of these indices makes the run undefined. *)
Theorem defined_iff_readable :
  forall (Ext : Type) (s : startup) (w : world Ext),
    argc s <= INT_MAX ->
    (run print_args_cc.main s w <> None <-> readable s = true)
    /\ (run print_args_cpp.main s w <> None <-> readable s = true).
Proof.
  intros Ext s w Hint. split; split.
  - unfold run, print_args_cc.main. apply shape_defined; [| |exact Hint].
    + intros st. eexists. now apply cout_insert.
    + intros i st. apply cc_body_needs.
  - intros Hr. rewrite (cc_run_readable s w Hint Hr). discriminate.
  - unfold run, print_args_cpp.main. apply shape_defined; [| |exact Hint].
    + intros st. eexists. now apply printf_plain.
    + intros i st. apply cpp_body_needs.
  - intros Hr. rewrite (cpp_run_readable s w Hint Hr). discriminate.
Qed.

Lemma defined_iff_readable_witness :
  argc (mkStartup 3 [literal "cc"; literal "-c"; None; None]) <= INT_MAX
  /\ readable (mkStartup 3 [literal "cc"; literal "-c"; None; None]) = false
  /\ (run print_args_cc.main (mkStartup 3 [literal "cc"; literal "-c"; None; None])
        (mkWorld "" "" "" tt) <> None
      <-> readable (mkStartup 3 [literal "cc"; literal "-c"; None; None]) = true).
Proof.
  split; [unfold INT_MAX; simpl; lia|]. split; [reflexivity|].
  apply (defined_iff_readable unit
           (mkStartup 3 [literal "cc"; literal "-c"; None; None])
           (mkWorld "" "" "" tt)).
  unfold INT_MAX; simpl; lia.
Defined.

(** ** Reading the arguments back from the output *)

Lemma length_append (a b : string) :
  String.length (a ++ b) = (String.length a + String.length b)%nat.
Proof. induction a as [|c a IH]; simpl; [reflexivity | now rewrite IH]. Qed.

Lemma append_inv_head (a x y : string) :
  (a ++ x)%string = (a ++ y)%string -> x = y.
Proof. induction a as [|c a IH]; simpl; intros H; [exact H | inversion H; auto]. Qed.

Lemma append_inv_tail (x y t : string) :
  (x ++ t)%string = (y ++ t)%string -> x = y.
Proof.
  revert y. induction x as [|c x IH]; intros [|d y] H; simpl in H.
  - reflexivity.
  - apply (f_equal String.length) in H. simpl in H. rewrite length_append in H. lia.
  - apply (f_equal String.length) in H. simpl in H. rewrite length_append in H. lia.
  - inversion H; subst. f_equal. now apply IH.
Qed.

(** Two newline-free texts, each followed by a newline, start two strings
    that are equal only if the texts and the remainders are. *)
Lemma line_inj (a b r r' : string) :
  lf_free a = true -> lf_free b = true ->
  (a ++ LF ++ r)%string = (b ++ LF ++ r')%string ->
  a = b /\ r = r'.
Proof.
  revert b. induction a as [|c a IH]; intros [|d b] Ha Hb H; simpl in *.
  - inversion H. now split.
  - inversion H; subst d. discriminate.
  - inversion H; subst c. discriminate.
  - apply andb_prop in Ha as [_ Ha]. apply andb_prop in Hb as [_ Hb].
    inversion H; subst d. destruct (IH b Ha Hb) as [-> ->]; [assumption | now split].
Qed.

Lemma lines_inj (xs ys : list string) :
  forallb lf_free xs = true -> forallb lf_free ys = true ->
  lines xs = lines ys -> xs = ys.
Proof.
  revert ys. induction xs as [|a xs IH]; intros [|b ys] Hx Hy H.
  - reflexivity.
  - cbn [lines] in H. destruct b; discriminate.
  - cbn [lines] in H. destruct a; discriminate.
  - cbn [forallb lines] in *.
    apply andb_prop in Hx as [Ha Hx]. apply andb_prop in Hy as [Hb Hy].
    destruct (line_inj _ _ _ _ Ha Hb H) as [-> Hr]. f_equal. now apply IH.
Qed.

Lemma echoed_inj (xs ys : list string) :
  forallb lf_free xs = true -> forallb lf_free ys = true ->
  echoed xs = echoed ys -> xs = ys.
Proof.
  intros Hx Hy H. unfold echoed in H.
  apply append_inv_head in H. apply append_inv_head in H.
  apply append_inv_tail in H. now apply lines_inj.
Qed.

Lemma emit_inj {Ext} (a b : string) (w : world Ext) :
  emit a w = emit b w -> a = b.
Proof.
  unfold emit. intros H. inversion H as [E]. now apply append_inv_head in E.
Qed.

(** X4: on argument lists in which no argument contains a newline the
    output determines the arguments.  Two launches of either program whose
    behaviour is the same had the same argument list, whatever the program
    names: the line-by-line format loses nothing but embedded newlines. *)
Theorem newline_free_arguments_recoverable :
  forall (Ext : Type) (prog1 prog2 : string) (args1 args2 : list string)
         (w : world Ext),
    passable args1 = true -> passable args2 = true ->
    forallb lf_free args1 = true -> forallb lf_free args2 = true ->
    (behaviour print_args_cc.main (exec prog1 args1) w
     = behaviour print_args_cc.main (exec prog2 args2) w -> args1 = args2)
    /\ (behaviour print_args_cpp.main (exec prog1 args1) w
        = behaviour print_args_cpp.main (exec prog2 args2) w -> args1 = args2).
Proof.
  intros Ext prog1 prog2 args1 args2 w P1 P2 L1 L2. split; intros H.
  - rewrite !cc_exec_behaviour in H by assumption.
    assert (E : emit (echoed args1) w = emit (echoed args2) w) by congruence.
    apply emit_inj in E. now apply echoed_inj.
  - rewrite !cpp_exec_behaviour in H by assumption.
    assert (E : emit (echoed args1) w = emit (echoed args2) w) by congruence.
    apply emit_inj in E. now apply echoed_inj.
Qed.

Lemma newline_free_arguments_recoverable_witness :
  passable ["-c"; "a b"] = true /\ passable ["-c"; "a b"] = true
  /\ forallb lf_free ["-c"; "a b"] = true
  /\ (behaviour print_args_cc.main (exec "clang" ["-c"; "a b"]) (mkWorld "" "" "" tt)
      = behaviour print_args_cc.main (exec "gcc" ["-c"; "a b"]) (mkWorld "" "" "" tt)
      -> ["-c"; "a b"] = ["-c"; "a b"]).
Proof.
  split; [reflexivity|]. split; [reflexivity|]. split; [reflexivity|].
  apply (newline_free_arguments_recoverable unit "clang" "gcc" ["-c"; "a b"]
           ["-c"; "a b"] (mkWorld "" "" "" tt)); reflexivity.
Defined.

(** ** Consecutive launches *)

(** X5: launches compose.  When one program is launched after the other on
    the same standard output, the second appends its block after the
    complete block of the first, so the stream holds one begin/end-delimited
    block per launch, in launch order, and nothing else has changed. *)
Theorem consecutive_launches :
  forall (Ext : Type) (prog1 prog2 : string) (args1 args2 : list string)
         (w : world Ext),
    passable args1 = true -> passable args2 = true ->
    exists w1 w2,
      behaviour print_args_cc.main (exec prog1 args1) w = Some (1, w1)
      /\ behaviour print_args_cpp.main (exec prog2 args2) w1 = Some (1, w2)
      /\ w_stdout w2 = (w_stdout w ++ echoed args1 ++ echoed args2)%string
      /\ w_stdin w2 = w_stdin w /\ w_stderr w2 = w_stderr w /\ w_ext w2 = w_ext w.
Proof.
  intros Ext prog1 prog2 args1 args2 w P1 P2.
  exists (emit (echoed args1) w), (emit (echoed args2) (emit (echoed args1) w)).
  split; [exact (cc_exec_behaviour prog1 args1 w P1)|].
  split; [exact (cpp_exec_behaviour prog2 args2 _ P2)|].
  rewrite emit_emit. repeat split.
Qed.

Lemma consecutive_launches_witness :
  passable ["-c"; "a.c"] = true /\ passable ["-c"; "b.c"] = true
  /\ exists w1 w2,
       behaviour print_args_cc.main (exec "cc" ["-c"; "a.c"]) (mkWorld "" "" "" tt)
       = Some (1, w1)
       /\ behaviour print_args_cpp.main (exec "cc" ["-c"; "b.c"]) w1 = Some (1, w2)
       /\ w_stdout w2
          = (w_stdout (mkWorld "" "" "" tt) ++ echoed ["-c"; "a.c"]
               ++ echoed ["-c"; "b.c"])%string
       /\ w_stdin w2 = w_stdin (mkWorld "" "" "" tt)
       /\ w_stderr w2 = w_stderr (mkWorld "" "" "" tt)
       /\ w_ext w2 = w_ext (mkWorld "" "" "" tt).
Proof.
  split; [reflexivity|]. split; [reflexivity|].
  apply (consecutive_launches unit "cc" "cc" ["-c"; "a.c"] ["-c"; "b.c"]
           (mkWorld "" "" "" tt)); reflexivity.
Defined.

(** ** The number of lines *)

Lemma newlines_append (a b : string) :
  newlines (a ++ b) = (newlines a + newlines b)%nat.
Proof.
  induction a as [|c a IH]; simpl; [reflexivity|]. rewrite IH. lia.
Qed.

Lemma newlines_lf_free (a : string) : lf_free a = true -> newlines a = O.
Proof.
  induction a as [|c a IH]; simpl; intros H; [reflexivity|].
  apply andb_prop in H as [Hc Ha]. apply negb_true_iff in Hc.
  now rewrite Hc, (IH Ha).
Qed.

Lemma newlines_lines (args : list string) :
  newlines (lines args)
  = (List.length args + list_sum (map newlines args))%nat.
Proof.
  induction args as [|a args IH]; [reflexivity|].
  cbn [lines map List.length]. rewrite !newlines_append, IH.
  unfold list_sum. cbn [fold_right].
  change (newlines LF) with 1%nat. lia.
Qed.

Lemma list_sum_newlines_lf_free (args : list string) :
  forallb lf_free args = true -> list_sum (map newlines args) = O.
Proof.
  induction args as [|a args IH]; [reflexivity|].
  cbn [forallb map]. intros H. apply andb_prop in H as [Ha Hr].
  specialize (IH Hr). unfold list_sum in *. cbn [fold_right].
  now rewrite (newlines_lf_free a Ha), IH.
Qed.

(** X6: a launch adds to standard output two newline characters for the
    sentinels, one per argument, and the newlines the arguments contain
    themselves; so with newline-free arguments the output grows by exactly
    (number of arguments) + 2 lines. *)
Theorem output_line_count :
  forall (Ext : Type) (prog : string) (args : list string) (w : world Ext),
    passable args = true ->
    exists w_cc w_cpp,
      behaviour print_args_cc.main (exec prog args) w = Some (1, w_cc)
      /\ behaviour print_args_cpp.main (exec prog args) w = Some (1, w_cpp)
      /\ newlines (w_stdout w_cc)
         = (newlines (w_stdout w) + (List.length args + 2)
            + list_sum (map newlines args))%nat
      /\ newlines (w_stdout w_cpp) = newlines (w_stdout w_cc)
      /\ (forallb lf_free args = true ->
          newlines (w_stdout w_cc)
          = (newlines (w_stdout w) + (List.length args + 2))%nat).
Proof.
  intros Ext prog args w P.
  exists (emit (echoed args) w), (emit (echoed args) w).
  split; [exact (cc_exec_behaviour prog args w P)|].
  split; [exact (cpp_exec_behaviour prog args w P)|].
  assert (E : newlines (w_stdout (emit (echoed args) w))
              = (newlines (w_stdout w) + (List.length args + 2)
                 + list_sum (map newlines args))%nat).
  { unfold emit, echoed. cbn [w_stdout].
    rewrite !newlines_append, newlines_lines.
    change (newlines LF) with 1%nat.
    change (newlines BEGIN_ARGS) with O. change (newlines END_ARGS) with O. lia. }
  split; [exact E|]. split; [reflexivity|].
  intros L. rewrite E, (list_sum_newlines_lf_free args L). lia.
Qed.

Lemma output_line_count_witness :
  passable ["-c"; "foo.c"] = true
  /\ exists w_cc w_cpp,
       behaviour print_args_cc.main (exec "cc" ["-c"; "foo.c"]) (mkWorld "" "" "" tt)
       = Some (1, w_cc)
       /\ behaviour print_args_cpp.main (exec "cc" ["-c"; "foo.c"]) (mkWorld "" "" "" tt)
          = Some (1, w_cpp)
       /\ newlines (w_stdout w_cc)
          = (newlines (w_stdout (mkWorld "" "" "" tt)) + (List.length ["-c"; "foo.c"] + 2)
             + list_sum (map newlines ["-c"; "foo.c"]))%nat
       /\ newlines (w_stdout w_cpp) = newlines (w_stdout w_cc)
       /\ (forallb lf_free ["-c"; "foo.c"] = true ->
           newlines (w_stdout w_cc)
           = (newlines (w_stdout (mkWorld "" "" "" tt))
              + (List.length ["-c"; "foo.c"] + 2))%nat).
Proof.
  split; [reflexivity|].
  apply (output_line_count unit "cc" ["-c"; "foo.c"] (mkWorld "" "" "" tt)).
  reflexivity.
Defined.

(** ** The output is text *)

Lemma nul_free_append (a b : string) :
  nul_free (a ++ b) = nul_free a && nul_free b.
Proof.
  induction a as [|c a IH]; simpl; [reflexivity|]. now rewrite IH, andb_assoc.
Qed.

Lemma nul_free_text_of (p : char_ptr) : nul_free (text_of p) = true.
Proof.
  destruct p as [buf|]; [|reflexivity]. unfold text_of.
  destruct (c_str buf) as [t|] eqn:E; [|reflexivity].
  exact (c_str_nul_free buf t E).
Qed.

Lemma nul_free_lines_texts (ptrs : list char_ptr) :
  nul_free (lines (map text_of ptrs)) = true.
Proof.
  induction ptrs as [|p ptrs IH]; [reflexivity|].
  cbn [map lines]. rewrite !nul_free_append, nul_free_text_of, IH. reflexivity.
Qed.

(** X7: neither program ever writes a NUL byte.  Whatever the memory behind
    the argument vector holds after the terminators, the bytes appended to
    standard output contain no NUL, so the output can be consumed as lines
    of text. *)
Theorem output_has_no_nul :
  forall (Ext : Type) (s : startup) (w : world Ext),
    argc s <= INT_MAX ->
    readable s = true ->
    exists out,
      nul_free out = true
      /\ behaviour print_args_cc.main s w = Some (1, emit out w)
      /\ behaviour print_args_cpp.main s w = Some (1, emit out w).
Proof.
  intros Ext s w Hint Hr.
  pose proof (cc_run_readable s w Hint Hr) as Hcc.
  pose proof (cpp_run_readable s w Hint Hr) as Hcpp.
  exists (echoed (map text_of (operands s))). split; [|split].
  - unfold echoed. rewrite !nul_free_append, nul_free_lines_texts. reflexivity.
  - unfold behaviour. now rewrite Hcc.
  - unfold behaviour. now rewrite Hcpp.
Qed.

Lemma output_has_no_nul_witness :
  argc (mkStartup 2 [literal "cc"; Some ("-c" ++ String NUL "left over"); None])
  <= INT_MAX
  /\ readable (mkStartup 2 [literal "cc"; Some ("-c" ++ String NUL "left over"); None])
     = true
  /\ exists out,
       nul_free out = true
       /\ behaviour print_args_cc.main
            (mkStartup 2 [literal "cc"; Some ("-c" ++ String NUL "left over"); None])
            (mkWorld "" "" "" tt) = Some (1, emit out (mkWorld "" "" "" tt))
       /\ behaviour print_args_cpp.main
            (mkStartup 2 [literal "cc"; Some ("-c" ++ String NUL "left over"); None])
            (mkWorld "" "" "" tt) = Some (1, emit out (mkWorld "" "" "" tt)).
Proof.
  split; [unfold INT_MAX; simpl; lia|]. split; [reflexivity|].
  apply (output_has_no_nul unit
           (mkStartup 2 [literal "cc"; Some ("-c" ++ String NUL "left over"); None])
           (mkWorld "" "" "" tt)).
  - unfold INT_MAX; simpl; lia.
  - reflexivity.
Defined.
